(** * testrunner: a shallow embedding of [testrunner.go]

    The source file holds two revisions of the program one after the other.
    This development embeds the later one (the revision with the
    [-verbose] flag and the [success]/[fail] counters), which is the one
    whose behaviour is described by the specification; the earlier revision
    is only referred to where it does something differently.

    Go strings are byte strings; they are modelled as Rocq [string]s, whose
    characters are 8-bit [ascii] values, i.e. bytes. *)

From Stdlib Require Import Ascii.
From stdpp Require Import base list gmap sets strings pretty.

Open Scope stdpp_scope.
Open Scope nat_scope.
Set Warnings "-abstract-large-number,-register-all".

(* ------------------------------------------------------------------ *)
(** ** Byte helpers *)

Definition byte_of (c : ascii) : nat := Ascii.nat_of_ascii c.

Definition substr (s : string) (b e : nat) : string :=
  String.substring b (e - b) s.

(** [strings.Join(elems, sep)] *)
Fixpoint join (sep : string) (l : list string) : string :=
  match l with
  | [] => ""
  | [x] => x
  | x :: l' => x +:+ sep +:+ join sep l'
  end.

(* ------------------------------------------------------------------ *)
(** ** Go slices over a shared heap of backing arrays

    A slice value is a header [{arr; len; cap}] pointing into a backing
    array stored in the heap.  [append] writes into the shared backing
    array when [len < cap] and copies into a fresh array otherwise, as the
    Go runtime does. *)

Record slice := mk_slice { sl_arr : nat; sl_len : nat; sl_cap : nat }.

Record heap := mk_heap { hp_arrays : gmap nat (list string); hp_next : nat }.

(** Allocation size classes of the Go allocator (bytes), up to 32 KiB. *)
Definition size_classes : list nat :=
  [8; 16; 24; 32; 48; 64; 80; 96; 112; 128; 144; 160; 176; 192; 208; 224;
   240; 256; 288; 320; 352; 384; 416; 448; 480; 512; 576; 640; 704; 768;
   896; 1024; 1152; 1280; 1408; 1536; 1792; 2048; 2304; 2688; 3072; 3200;
   3456; 4096; 4864; 5376; 6144; 6528; 6784; 6912; 8192; 9472; 9728; 10240;
   10880; 12288; 13568; 14336; 16384; 18432; 19072; 20480; 21760; 24576;
   27264; 28672; 32768].

(** [roundupsize]: the smallest size class holding [n] bytes; large
    objects are rounded up to whole 8 KiB pages. *)
Definition roundupsize (n : nat) : nat :=
  match filter (fun c => n <= c) size_classes with
  | c :: _ => c
  | [] => ((n + 8191) / 8192) * 8192
  end.

(** Size in bytes of a Go [string] header on a 64-bit target. *)
Definition string_size : nat := 16.

Fixpoint grow_loop (fuel newcap newlen : nat) : nat :=
  match fuel with
  | 0 => newcap
  | S f => if newcap <? newlen
           then grow_loop f (newcap + (newcap + 3 * 256) / 4) newlen
           else newcap
  end.

(** [growslice]: the capacity of the array allocated when appending to a
    full slice of capacity [old] gives length [newlen]. *)
Definition growcap (old newlen : nat) : nat :=
  let newcap :=
    if 2 * old <? newlen then newlen
    else if old <? 256 then 2 * old
    else grow_loop newlen old newlen in
  roundupsize (newcap * string_size) / string_size.

(** [make([]string, 0, k)] *)
Definition make_slice (h : heap) (k : nat) : heap * slice :=
  (mk_heap (<[hp_next h := replicate k ""]> (hp_arrays h)) (S (hp_next h)),
   mk_slice (hp_next h) 0 k).

(** The elements visible through a slice header. *)
Definition read_slice (h : heap) (s : slice) : list string :=
  match hp_arrays h !! sl_arr s with
  | Some a => take (sl_len s) a
  | None => []
  end.

(** [append(s, x)] *)
Definition go_append (h : heap) (s : slice) (x : string) : heap * slice :=
  let a := default [] (hp_arrays h !! sl_arr s) in
  if sl_len s <? sl_cap s then
    (mk_heap (<[sl_arr s := <[sl_len s := x]> a]> (hp_arrays h)) (hp_next h),
     mk_slice (sl_arr s) (S (sl_len s)) (sl_cap s))
  else
    let nc := growcap (sl_cap s) (S (sl_len s)) in
    (mk_heap (<[hp_next h := take (sl_len s) a ++ [x]
                              ++ replicate (nc - S (sl_len s)) ""]>
                (hp_arrays h)) (S (hp_next h)),
     mk_slice (hp_next h) (S (sl_len s)) nc).

(* ------------------------------------------------------------------ *)
(** ** [regexp.MustCompile(`\s+`).Split(s, -1)]

    [\s] of Go's RE2 syntax is the class [[\t\n\f\r ]]; [\s+] matches the
    maximal runs of those bytes, which [FindAllStringIndex] returns as
    [(start, end)] pairs. *)

Definition is_re_space (c : ascii) : bool :=
  let n := byte_of c in
  (n =? 9) || (n =? 10) || (n =? 12) || (n =? 13) || (n =? 32).

Fixpoint space_runs (s : string) (i : nat) (cur : option nat)
  : list (nat * nat) :=
  match s with
  | EmptyString =>
      match cur with Some b => [(b, i)] | None => [] end
  | String c s' =>
      if is_re_space c then
        space_runs s' (S i) (match cur with Some b => Some b | None => Some i end)
      else
        match cur with
        | Some b => (b, i) :: space_runs s' (S i) None
        | None => space_runs s' (S i) None
        end
  end.

Definition find_all_space (s : string) : list (nat * nat) := space_runs s 0 None.

(** The loop of [Regexp.Split] with [n = -1]; [beg] and [end] as in Go. *)
Fixpoint split_loop (s : string) (ms : list (nat * nat))
    (h : heap) (sl : slice) (beg en : nat) : heap * slice * nat * nat :=
  match ms with
  | [] => (h, sl, beg, en)
  | (m0, m1) :: ms' =>
      let '(h', sl') := if negb (m1 =? 0)
                        then go_append h sl (substr s beg m0)
                        else (h, sl) in
      split_loop s ms' h' sl' m1 m0
  end.

Definition regexp_split (h : heap) (s : string) : heap * slice :=
  if String.length s =? 0 then
    let '(h1, sl) := make_slice h 1 in
    go_append h1 sl ""
  else
    let ms := find_all_space s in
    let '(h1, sl) := make_slice h (length ms) in
    let '(h2, sl2, beg, en) := split_loop s ms h1 sl 0 0 in
    if negb (en =? String.length s)
    then go_append h2 sl2 (substr s beg (String.length s))
    else (h2, sl2).

Definition empty_heap : heap := mk_heap ∅ 0.

(* ------------------------------------------------------------------ *)
(** ** [strings.TrimSpace]

    [TrimSpace] removes the leading and trailing runes for which
    [unicode.IsSpace] holds: the ASCII bytes [\t \n \v \f \r] and space,
    and the UTF-8 encodings of U+0085, U+00A0, U+1680, U+2000..U+200A,
    U+2028, U+2029, U+202F, U+205F and U+3000.  An invalid UTF-8 sequence
    decodes to [RuneError], which is not a space. *)

Definition space_runes : list (list nat) :=
  [[9]; [10]; [11]; [12]; [13]; [32];
   [194; 133]; [194; 160]; [225; 154; 128];
   [226; 128; 128]; [226; 128; 129]; [226; 128; 130]; [226; 128; 131];
   [226; 128; 132]; [226; 128; 133]; [226; 128; 134]; [226; 128; 135];
   [226; 128; 136]; [226; 128; 137]; [226; 128; 138];
   [226; 128; 168]; [226; 128; 169]; [226; 128; 175]; [226; 129; 159];
   [227; 128; 128]].

Fixpoint prefixb (e : list nat) (l : list ascii) : bool :=
  match e, l with
  | [], _ => true
  | n :: e', c :: l' => (n =? byte_of c) && prefixb e' l'
  | _ :: _, [] => false
  end.

(** The width of the space rune [l] starts with, if any. *)
Definition space_prefix (rs : list (list nat)) (l : list ascii) : option nat :=
  match filter (fun e => prefixb e l = true) rs with
  | e :: _ => Some (length e)
  | [] => None
  end.

Fixpoint trim_left_go (rs : list (list nat)) (fuel : nat) (l : list ascii)
  : list ascii :=
  match fuel with
  | 0 => l
  | S f => match space_prefix rs l with
           | Some n => trim_left_go rs f (drop n l)
           | None => l
           end
  end.

(** [TrimLeftFunc(s, unicode.IsSpace)] *)
Definition trim_left (l : list ascii) : list ascii :=
  trim_left_go space_runes (length l) l.

(** [TrimRightFunc(s, unicode.IsSpace)]: the same scan on the reversed
    bytes with the reversed encodings. *)
Definition trim_right (l : list ascii) : list ascii :=
  reverse (trim_left_go (map reverse space_runes) (length l) (reverse l)).

Definition go_trim_space (s : string) : string :=
  String.string_of_list_ascii
    (trim_right (trim_left (String.list_ascii_of_string s))).

(* ------------------------------------------------------------------ *)
(** ** Output formatting *)

Definition nl : string := String.String (ascii_of_nat 10) EmptyString.

(** The report built by [run]:
    [fmt.Sprintf("Running %s\n\n%s\n\nElapsed: %s\n", ...)]. *)
Definition format_report (cmdparts : list string) (out elapsed : string)
  : string :=
  "Running " +:+ join " " cmdparts +:+ nl +:+ nl +:+ out +:+ nl +:+ nl
  +:+ "Elapsed: " +:+ elapsed +:+ nl.

(** What one received message makes [printer] write:
    [if output = strings.TrimSpace(output); output != "" {
       fmt.Printf("\n%s\n\n", output) }]. *)
Definition printer_out (s : string) : list string :=
  let t := go_trim_space s in
  if String.eqb t "" then [] else [nl +:+ t +:+ nl +:+ nl].

(* ------------------------------------------------------------------ *)
(** ** The external command *)

(** What the operating system does with one invocation: the process runs
    and exits with a status after writing its combined output, or it
    cannot be started at all. *)
Inductive cmd_result :=
| Exited (out : string) (code : nat)
| LaunchErr (msg : string).

(** The walk callback's view of one visited entry: its path, its
    [os.FileInfo] ([None] when [Lstat] failed; [Some true] for a
    directory) and whether an error was passed along. *)
Record walk_event := mk_event
  { ev_path : string; ev_is_dir : option bool; ev_err : bool }.

(** A worker goroutine, at the points between the statements of
    [worker] and [run] that touch shared state. *)
Inductive wstate :=
| WRecv                                        (* [for filename := range path] *)
| WAppend (p : string)                         (* [start := time.Now(); cmdparts := append(parts[:], path)] *)
| WExec (p : string) (cp : slice) (t0 : nat)   (* [cmd.CombinedOutput()] *)
| WCount (p : string) (cp : slice) (t0 : nat) (out : string) (failed : bool)
                                               (* [resultMtx.Lock(); fail/success += 1; Unlock()] *)
| WFormat (p : string) (cp : slice) (t0 : nat) (out : string)
                                               (* [return fmt.Sprintf(...)] *)
| WDone (r : string)                           (* deferred [wg.Done()] *)
| WSend (r : string)                           (* [output <- run(...)] *)
| WExit.

(** The printer goroutine: waiting in its [select], or holding a message
    it has received and not yet printed. *)
Inductive pstate :=
| PWait
| PGot (s : string).

(** The main goroutine. *)
Inductive mstate :=
| MWalk (evs : list walk_event)   (* inside [filepath.Walk] *)
| MWait                           (* [wg.Wait()] *)
| MClosed                         (* after [close(input); close(output)] *)
| MExited (code : nat).           (* [os.Exit] or return from [main] *)

Record state := mk_state {
  st_heap : heap;
  st_parts : slice;                (* the global [parts] *)
  st_files : gset string;          (* the [files] map of [main] *)
  st_dispatched : list string;     (* history: paths sent on [input], in order *)
  st_wg : nat;                     (* the [sync.WaitGroup] counter *)
  st_input : list string;          (* buffered channel [input], capacity 128 *)
  st_input_closed : bool;
  st_output_closed : bool;         (* unbuffered channel [output] *)
  st_workers : list wstate;
  st_printer : pstate;
  st_success : nat;
  st_fail : nat;
  st_main : mstate;
  st_panicked : bool;              (* an unrecovered goroutine panic *)
  st_now : nat;                    (* the clock *)
  st_stdout : list string
}.

Definition input_capacity : nat := 128.

(** Field updates. *)

Definition set_heap (x : heap) (st : state) : state :=
  {| st_heap := x; st_parts := st_parts st; st_files := st_files st; st_dispatched := st_dispatched st; st_wg := st_wg st; st_input := st_input st; st_input_closed := st_input_closed st; st_output_closed := st_output_closed st; st_workers := st_workers st; st_printer := st_printer st; st_success := st_success st; st_fail := st_fail st; st_main := st_main st; st_panicked := st_panicked st; st_now := st_now st; st_stdout := st_stdout st |}.

Definition set_files (x : gset string) (st : state) : state :=
  {| st_heap := st_heap st; st_parts := st_parts st; st_files := x; st_dispatched := st_dispatched st; st_wg := st_wg st; st_input := st_input st; st_input_closed := st_input_closed st; st_output_closed := st_output_closed st; st_workers := st_workers st; st_printer := st_printer st; st_success := st_success st; st_fail := st_fail st; st_main := st_main st; st_panicked := st_panicked st; st_now := st_now st; st_stdout := st_stdout st |}.

Definition set_dispatched (x : list string) (st : state) : state :=
  {| st_heap := st_heap st; st_parts := st_parts st; st_files := st_files st; st_dispatched := x; st_wg := st_wg st; st_input := st_input st; st_input_closed := st_input_closed st; st_output_closed := st_output_closed st; st_workers := st_workers st; st_printer := st_printer st; st_success := st_success st; st_fail := st_fail st; st_main := st_main st; st_panicked := st_panicked st; st_now := st_now st; st_stdout := st_stdout st |}.

Definition set_wg (x : nat) (st : state) : state :=
  {| st_heap := st_heap st; st_parts := st_parts st; st_files := st_files st; st_dispatched := st_dispatched st; st_wg := x; st_input := st_input st; st_input_closed := st_input_closed st; st_output_closed := st_output_closed st; st_workers := st_workers st; st_printer := st_printer st; st_success := st_success st; st_fail := st_fail st; st_main := st_main st; st_panicked := st_panicked st; st_now := st_now st; st_stdout := st_stdout st |}.

Definition set_input (x : list string) (st : state) : state :=
  {| st_heap := st_heap st; st_parts := st_parts st; st_files := st_files st; st_dispatched := st_dispatched st; st_wg := st_wg st; st_input := x; st_input_closed := st_input_closed st; st_output_closed := st_output_closed st; st_workers := st_workers st; st_printer := st_printer st; st_success := st_success st; st_fail := st_fail st; st_main := st_main st; st_panicked := st_panicked st; st_now := st_now st; st_stdout := st_stdout st |}.

Definition set_input_closed (x : bool) (st : state) : state :=
  {| st_heap := st_heap st; st_parts := st_parts st; st_files := st_files st; st_dispatched := st_dispatched st; st_wg := st_wg st; st_input := st_input st; st_input_closed := x; st_output_closed := st_output_closed st; st_workers := st_workers st; st_printer := st_printer st; st_success := st_success st; st_fail := st_fail st; st_main := st_main st; st_panicked := st_panicked st; st_now := st_now st; st_stdout := st_stdout st |}.

Definition set_output_closed (x : bool) (st : state) : state :=
  {| st_heap := st_heap st; st_parts := st_parts st; st_files := st_files st; st_dispatched := st_dispatched st; st_wg := st_wg st; st_input := st_input st; st_input_closed := st_input_closed st; st_output_closed := x; st_workers := st_workers st; st_printer := st_printer st; st_success := st_success st; st_fail := st_fail st; st_main := st_main st; st_panicked := st_panicked st; st_now := st_now st; st_stdout := st_stdout st |}.

Definition set_workers (x : list wstate) (st : state) : state :=
  {| st_heap := st_heap st; st_parts := st_parts st; st_files := st_files st; st_dispatched := st_dispatched st; st_wg := st_wg st; st_input := st_input st; st_input_closed := st_input_closed st; st_output_closed := st_output_closed st; st_workers := x; st_printer := st_printer st; st_success := st_success st; st_fail := st_fail st; st_main := st_main st; st_panicked := st_panicked st; st_now := st_now st; st_stdout := st_stdout st |}.

Definition set_printer (x : pstate) (st : state) : state :=
  {| st_heap := st_heap st; st_parts := st_parts st; st_files := st_files st; st_dispatched := st_dispatched st; st_wg := st_wg st; st_input := st_input st; st_input_closed := st_input_closed st; st_output_closed := st_output_closed st; st_workers := st_workers st; st_printer := x; st_success := st_success st; st_fail := st_fail st; st_main := st_main st; st_panicked := st_panicked st; st_now := st_now st; st_stdout := st_stdout st |}.

Definition set_success (x : nat) (st : state) : state :=
  {| st_heap := st_heap st; st_parts := st_parts st; st_files := st_files st; st_dispatched := st_dispatched st; st_wg := st_wg st; st_input := st_input st; st_input_closed := st_input_closed st; st_output_closed := st_output_closed st; st_workers := st_workers st; st_printer := st_printer st; st_success := x; st_fail := st_fail st; st_main := st_main st; st_panicked := st_panicked st; st_now := st_now st; st_stdout := st_stdout st |}.

Definition set_fail (x : nat) (st : state) : state :=
  {| st_heap := st_heap st; st_parts := st_parts st; st_files := st_files st; st_dispatched := st_dispatched st; st_wg := st_wg st; st_input := st_input st; st_input_closed := st_input_closed st; st_output_closed := st_output_closed st; st_workers := st_workers st; st_printer := st_printer st; st_success := st_success st; st_fail := x; st_main := st_main st; st_panicked := st_panicked st; st_now := st_now st; st_stdout := st_stdout st |}.

Definition set_main (x : mstate) (st : state) : state :=
  {| st_heap := st_heap st; st_parts := st_parts st; st_files := st_files st; st_dispatched := st_dispatched st; st_wg := st_wg st; st_input := st_input st; st_input_closed := st_input_closed st; st_output_closed := st_output_closed st; st_workers := st_workers st; st_printer := st_printer st; st_success := st_success st; st_fail := st_fail st; st_main := x; st_panicked := st_panicked st; st_now := st_now st; st_stdout := st_stdout st |}.

Definition set_panicked (x : bool) (st : state) : state :=
  {| st_heap := st_heap st; st_parts := st_parts st; st_files := st_files st; st_dispatched := st_dispatched st; st_wg := st_wg st; st_input := st_input st; st_input_closed := st_input_closed st; st_output_closed := st_output_closed st; st_workers := st_workers st; st_printer := st_printer st; st_success := st_success st; st_fail := st_fail st; st_main := st_main st; st_panicked := x; st_now := st_now st; st_stdout := st_stdout st |}.

Definition set_now (x : nat) (st : state) : state :=
  {| st_heap := st_heap st; st_parts := st_parts st; st_files := st_files st; st_dispatched := st_dispatched st; st_wg := st_wg st; st_input := st_input st; st_input_closed := st_input_closed st; st_output_closed := st_output_closed st; st_workers := st_workers st; st_printer := st_printer st; st_success := st_success st; st_fail := st_fail st; st_main := st_main st; st_panicked := st_panicked st; st_now := x; st_stdout := st_stdout st |}.

Definition set_stdout (x : list string) (st : state) : state :=
  {| st_heap := st_heap st; st_parts := st_parts st; st_files := st_files st; st_dispatched := st_dispatched st; st_wg := st_wg st; st_input := st_input st; st_input_closed := st_input_closed st; st_output_closed := st_output_closed st; st_workers := st_workers st; st_printer := st_printer st; st_success := st_success st; st_fail := st_fail st; st_main := st_main st; st_panicked := st_panicked st; st_now := st_now st; st_stdout := x |}.
(* ------------------------------------------------------------------ *)
(** ** The program *)

(** The command line: [-command], the outcome of [regexp.Compile] on
    [-pattern] ([Some msg] is a compile error), [-threads], and the entries
    [filepath.Walk] visits under [-root], in order. *)
Record config := mk_config {
  cfg_command : string;
  cfg_pattern_err : option string;
  cfg_threads : nat;
  cfg_walk : list walk_event
}.

(** The scheduler's choice of which goroutine moves next. *)
Inductive choice :=
| CMain                 (* the main goroutine *)
| CWorker (i : nat)     (* the [i]-th worker goroutine *)
| CPrint                (* the printer prints what it received *)
| CTimeout              (* the printer's [time.After] case fires *)
| CClosedRecv           (* the printer receives from the closed [output] *)
| CTick.                (* time passes *)

Section Runner.

(** The compiled pattern, [matcher.MatchString]. *)
Variable matcher : string -> bool.
(** The operating system running [Path] with [Args]. *)
Variable oracle : string -> list string -> cmd_result.
(** [time.Duration.String] of an elapsed number of clock ticks. *)
Variable fmt_duration : nat -> string.

(** [cmd.CombinedOutput()] for [exec.Cmd{Path: path, Args: args}]: an
    empty [Path] is refused before anything is started; a process that
    cannot be started leaves the output buffer empty. *)
Definition combined_output (path : string) (args : list string)
  : string * option string :=
  if String.eqb path "" then ("", Some "exec: no command")
  else match oracle path args with
       | Exited out 0 => (out, None)
       | Exited out c => (out, Some ("exit status " +:+ pretty c))
       | LaunchErr msg => ("", Some msg)
       end.

(** The callback given to [filepath.Walk] in [main]: it ignores [info] and
    [err]; it returns the path to send on [input] when the path matches and
    is not yet in [files]. *)
Definition walk_cb (files : gset string) (ev : walk_event) : option string :=
  let p := ev_path ev in
  if matcher p && negb (bool_decide (p ∈ files)) then Some p else None.

(** The sequence of paths the walk sends on [input]. *)
Fixpoint dispatch_seq (files : gset string) (evs : list walk_event)
  : list string :=
  match evs with
  | [] => []
  | ev :: evs' =>
      match walk_cb files ev with
      | Some p => p :: dispatch_seq ({[p]} ∪ files) evs'
      | None => dispatch_seq files evs'
      end
  end.

Definition summary (st : state) : string :=
  nl +:+ nl +:+ "Complete runtime: " +:+ fmt_duration (st_now st)
  +:+ " | Success: " +:+ pretty (st_success st)
  +:+ " Failure: " +:+ pretty (st_fail st) +:+ nl +:+ nl.

(** [if fail > 0 { os.Exit(1) }], otherwise [main] returns. *)
Definition exit_code (fail : nat) : nat := if 0 <? fail then 1 else 0.

(** One move of the main goroutine.  The callback's [wg.Add(1)],
    [files[path] = ...] and [input <- path] are taken as one move, enabled
    while [input] has room. *)
Definition main_move (st : state) : option state :=
  match st_main st with
  | MWalk [] => Some (set_main MWait st)
  | MWalk (ev :: evs) =>
      match walk_cb (st_files st) ev with
      | Some p =>
          if length (st_input st) <? input_capacity then
            Some (set_main (MWalk evs)
                 (set_input (st_input st ++ [p])
                 (set_dispatched (st_dispatched st ++ [p])
                 (set_files ({[p]} ∪ st_files st)
                 (set_wg (S (st_wg st)) st)))))
          else None
      | None => Some (set_main (MWalk evs) st)
      end
  | MWait =>
      match st_wg st with
      | 0 => Some (set_main MClosed (set_output_closed true
                                    (set_input_closed true st)))
      | S _ => None
      end
  | MClosed =>
      Some (set_main (MExited (exit_code (st_fail st)))
                     (set_stdout (st_stdout st ++ [summary st]) st))
  | MExited _ => None
  end.

(** One move of worker [i]. *)
Definition worker_move (st : state) (i : nat) : option state :=
  let ws := st_workers st in
  match ws !! i with
  | None => None
  | Some WRecv =>
      match st_input st with
      | p :: rest => Some (set_workers (<[i := WAppend p]> ws) (set_input rest st))
      | [] => if st_input_closed st
              then Some (set_workers (<[i := WExit]> ws) st)
              else None
      end
  | Some (WAppend p) =>
      let '(h', cp) := go_append (st_heap st) (st_parts st) p in
      Some (set_workers (<[i := WExec p cp (st_now st)]> ws) (set_heap h' st))
  | Some (WExec p cp t0) =>
      let path := default "" (read_slice (st_heap st) (st_parts st) !! 0) in
      let '(out, err) := combined_output path (read_slice (st_heap st) cp) in
      let failed := match err with Some _ => true | None => false end in
      Some (set_workers (<[i := WCount p cp t0 out failed]> ws) st)
  | Some (WCount p cp t0 out failed) =>
      let st' := if failed then set_fail (S (st_fail st)) st
                 else set_success (S (st_success st)) st in
      Some (set_workers (<[i := WFormat p cp t0 out]> ws) st')
  | Some (WFormat p cp t0 out) =>
      let r := format_report (read_slice (st_heap st) cp) out
                             (fmt_duration (st_now st - t0)) in
      Some (set_workers (<[i := WDone r]> ws) st)
  | Some (WDone r) =>
      match st_wg st with
      | S n => Some (set_workers (<[i := WSend r]> ws) (set_wg n st))
      | 0 => Some (set_panicked true st)   (* negative WaitGroup counter *)
      end
  | Some (WSend r) =>
      if st_output_closed st then Some (set_panicked true st)  (* send on closed channel *)
      else match st_printer st with
           | PWait => Some (set_printer (PGot r) (set_workers (<[i := WRecv]> ws) st))
           | PGot _ => None
           end
  | Some WExit => None
  end.

Definition live (st : state) : bool :=
  negb (st_panicked st) &&
  match st_main st with MExited _ => false | _ => true end.

Definition exec_choice (st : state) (c : choice) : option state :=
  if live st then
    match c with
    | CMain => main_move st
    | CWorker i => worker_move st i
    | CPrint =>
        match st_printer st with
        | PGot s => Some (set_printer PWait (set_stdout (st_stdout st ++ printer_out s) st))
        | PWait => None
        end
    | CTimeout =>
        match st_printer st with
        | PWait => Some (set_stdout (st_stdout st ++ [nl]) st)
        | PGot _ => None
        end
    | CClosedRecv =>
        match st_printer st with
        | PWait => if st_output_closed st then Some (set_printer (PGot "") st) else None
        | PGot _ => None
        end
    | CTick => Some (set_now (S (st_now st)) st)
    end
  else None.

Definition step (st st' : state) : Prop := exists c, exec_choice st c = Some st'.

(** The exit status of the process, once it has ended. *)
Definition exit_status (st : state) : option nat :=
  if st_panicked st then Some 2
  else match st_main st with MExited c => Some c | _ => None end.

Definition blank_state : state :=
  {| st_heap := mk_heap ∅ 1; st_parts := mk_slice 0 0 0; st_files := ∅;
     st_dispatched := []; st_wg := 0; st_input := []; st_input_closed := false;
     st_output_closed := false; st_workers := []; st_printer := PWait;
     st_success := 0; st_fail := 0; st_main := MExited 1; st_panicked := false;
     st_now := 0; st_stdout := [] |}.

(** [main] up to the walk: the empty-command check, [parts], the worker and
    printer goroutines, and the pattern compilation. *)
Definition init (cfg : config) : state :=
  if String.eqb (cfg_command cfg) "" then
    set_stdout ["no command is specified" +:+ nl] blank_state
  else
    let '(h, parts) := regexp_split empty_heap (cfg_command cfg) in
    let st0 := {| st_heap := h; st_parts := parts; st_files := ∅;
                  st_dispatched := []; st_wg := 0; st_input := [];
                  st_input_closed := false; st_output_closed := false;
                  st_workers := replicate (cfg_threads cfg) WRecv;
                  st_printer := PWait; st_success := 0; st_fail := 0;
                  st_main := MExited 1; st_panicked := false; st_now := 0;
                  st_stdout := [] |} in
    match cfg_pattern_err cfg with
    | Some msg => set_stdout [msg +:+ nl] st0
    | None => set_main (MWalk (cfg_walk cfg))
                (set_stdout ["Starting " +:+ pretty (cfg_threads cfg) +:+ " threads"
                             +:+ nl +:+ nl] st0)
    end.

Definition reachable (cfg : config) (st : state) : Prop := rtc step (init cfg) st.

(** Running a schedule. *)
Fixpoint run_sched (st : state) (cs : list choice) : option state :=
  match cs with
  | [] => Some st
  | c :: cs' => match exec_choice st c with
                | Some st' => run_sched st' cs'
                | None => None
                end
  end.

End Runner.

(* ------------------------------------------------------------------ *)
(** ** [filepath.Walk]

    A directory tree: a file, or a directory that can or cannot be read,
    whose entries are named and may fail [os.Lstat] ([None]).  Entries are
    listed in the lexical order [readDirNames] sorts them into.  The
    callback of this program always returns [nil], so the walk never stops
    early and never skips a directory. *)
Inductive fsnode :=
| FFile
| FDir (readable : bool) (entries : list (string * option fsnode)).

(** [filepath.Join] for a root written without a trailing separator. *)
Definition join_path (dir name : string) : string :=
  if String.eqb dir "." then name else dir +:+ "/" +:+ name.

(** [walk]: the callback sees a directory (with the [readDirNames] error if
    it cannot be read) before its entries. *)
Fixpoint walk_node (path : string) (n : fsnode) : list walk_event :=
  match n with
  | FFile => [mk_event path (Some false) false]
  | FDir rd entries =>
      mk_event path (Some true) (negb rd) ::
      (if rd then
         (fix go (es : list (string * option fsnode)) : list walk_event :=
            match es with
            | [] => []
            | (name, None) :: es' =>
                mk_event (join_path path name) None true :: go es'
            | (name, Some c) :: es' => walk_node (join_path path name) c ++ go es'
            end) entries
       else [])
  end.

(** [filepath.Walk(root, fn)]: when [os.Lstat(root)] fails the callback is
    called once, with the root path, a nil [info] and the error. *)
Definition go_walk (root : string) (r : option fsnode) : list walk_event :=
  match r with
  | None => [mk_event root None true]
  | Some n => walk_node root n
  end.

(* ------------------------------------------------------------------ *)
(** ** Concrete instances used by the witnesses *)

(** The default [-pattern], [Test.php$]: the path ends in [Test], one
    byte other than a newline, and [php]. *)
Definition default_match (s : string) : bool :=
  let l := String.list_ascii_of_string s in
  let n := length l in
  match drop (n - 8) l with
  | [c1; c2; c3; c4; c5; c6; c7; c8] =>
      (8 <=? n) && (byte_of c1 =? 84) && (byte_of c2 =? 101)
      && (byte_of c3 =? 115) && (byte_of c4 =? 116)
      && negb (byte_of c5 =? 10)
      && (byte_of c6 =? 112) && (byte_of c7 =? 104) && (byte_of c8 =? 112)
  | _ => false
  end.

Definition match_all (s : string) : bool := true.

(** A command that succeeds and prints the file it was given. *)
Definition echo_last (path : string) (args : list string) : cmd_result :=
  Exited (default "" (last args)) 0.

(** An executable that does not exist. *)
Definition missing_exe (path : string) (args : list string) : cmd_result :=
  LaunchErr ("fork/exec " +:+ path +:+ ": no such file or directory").

Definition secs (n : nat) : string := pretty n +:+ "s".

(** The state a schedule leads to from the start of a run. *)
Definition after m o d (cfg : config) (cs : list choice) : state :=
  default blank_state (run_sched m o d (init cfg) cs).

Definition file_ev (p : string) : walk_event := mk_event p (Some false) false.

(** One test file, one worker. *)
Definition cfg_one : config := mk_config "phpunit" None 1 [file_ev "FooTest.php"].

(** The walk, the worker's whole [run] up to and including [wg.Done()]. *)
Definition sched_run_one : list choice :=
  [CMain; CMain; CWorker 0; CWorker 0; CWorker 0; CWorker 0; CWorker 0; CWorker 0].

(** ... then [wg.Wait()] returns and [main] closes the channels before the
    worker sends its report. *)
Definition sched_close_first : list choice := sched_run_one ++ [CMain; CWorker 0].

(** ... or the report is sent and printed first, and [main] finishes. *)
Definition sched_send_first : list choice :=
  sched_run_one ++ [CWorker 0; CPrint; CMain; CMain].

(** The same file yielded twice by the walk. *)
Definition cfg_dup : config :=
  mk_config "phpunit" None 1 [file_ev "FooTest.php"; file_ev "FooTest.php"].

(** A command of three parts, two files, two workers. *)
Definition cfg_abc : config :=
  mk_config "a b c" None 2 [file_ev "XTest.php"; file_ev "YTest.php"].

Definition sched_abc : list choice :=
  [CMain; CMain; CMain; CWorker 0; CWorker 1; CWorker 0; CWorker 1; CWorker 0].

(** An executable that does not exist. *)
Definition cfg_missing : config := mk_config "./missing" None 1 [file_ev "FooTest.php"].

Definition missing_msg : string := "fork/exec ./missing: no such file or directory".

(** A directory whose name matches the default pattern. *)
Definition dir_tree : fsnode := FDir true [("FooTest.php", Some (FDir true []))].

Definition cfg_dir : config := mk_config "phpunit" None 1 (go_walk "." (Some dir_tree)).

(** A command with a leading space. *)
Definition space_char : ascii := ascii_of_nat 32.

Definition cfg_lead_space (walk : list walk_event) : config :=
  mk_config (String.String space_char "phpunit") None 1 walk.

(* ------------------------------------------------------------------ *)
(** ** Bookkeeping for the invariants *)

(** Workers that hold an item whose outcome is not counted yet. *)
Definition pre_count (w : wstate) : bool :=
  match w with WAppend _ | WExec _ _ _ | WCount _ _ _ _ _ => true | _ => false end.

(** Workers that hold an item whose [wg.Done()] has not run yet. *)
Definition pre_done (w : wstate) : bool :=
  match w with
  | WAppend _ | WExec _ _ _ | WCount _ _ _ _ _ | WFormat _ _ _ _ | WDone _ => true
  | _ => false
  end.

(** Workers that hold an item at all. *)
Definition busy (w : wstate) : bool :=
  match w with WRecv | WExit => false | _ => true end.

(** Workers about to count a success. *)
Definition counts_success (w : wstate) : bool :=
  match w with WCount _ _ _ _ false => true | _ => false end.

Fixpoint wcount (f : wstate -> bool) (ws : list wstate) : nat :=
  match ws with
  | [] => 0
  | w :: ws' => (if f w then 1 else 0) + wcount f ws'
  end.

(** [main] stops before the walk: no command, or a pattern that does not
    compile. *)
Definition init_exits (cfg : config) : bool :=
  String.eqb (cfg_command cfg) ""
  || match cfg_pattern_err cfg with Some _ => true | None => false end.

(** The [parts] the command string splits into. *)
Definition init_parts (cfg : config) : list string :=
  let '(h, sl) := regexp_split empty_heap (cfg_command cfg) in read_slice h sl.

(** A slice header whose backing array is allocated, as long as its
    capacity, and holds its length. *)
Definition slice_wf (h : heap) (s : slice) : Prop :=
  sl_arr s < hp_next h /\ sl_len s <= sl_cap s /\
  exists a, hp_arrays h !! sl_arr s = Some a /\ length a = sl_cap s.

Section Invariant.
Variable matcher : string -> bool.
Variable oracle : string -> list string -> cmd_result.
Variable fmt_duration : nat -> string.
Variable cfg : config.

(** The invariant of the pipeline. *)
Record inv (st : state) : Prop := {
  inv_count : st_success st + st_fail st + wcount pre_count (st_workers st)
              + length (st_input st) = length (st_dispatched st);
  inv_wg : st_wg st = length (st_input st) + wcount pre_done (st_workers st);
  inv_drained : match st_main st with MWalk _ | MWait => True | _ => st_wg st = 0 end;
  inv_busy : wcount busy (st_workers st) + length (st_input st)
             <= length (st_dispatched st);
  inv_panic : st_panicked st = true -> 0 < length (st_dispatched st);
  inv_exit : forall c, st_main st = MExited c ->
             c = exit_code (st_fail st) \/ init_exits cfg = true;
  inv_nodup : NoDup (st_dispatched st);
  inv_files : forall p, p ∈ st_dispatched st <-> p ∈ st_files st;
  inv_suffix : match st_main st with
               | MWalk evs => forall ev, ev ∈ evs -> ev ∈ cfg_walk cfg
               | _ => True
               end;
  inv_walked : forall p, p ∈ st_dispatched st ->
               matcher p = true /\ exists ev, ev ∈ cfg_walk cfg /\ ev_path ev = p;
  inv_parts : read_slice (st_heap st) (st_parts st) = init_parts cfg \/
              init_exits cfg = true;
  inv_parts_arr : sl_arr (st_parts st) < hp_next (st_heap st);
  inv_fail_only : default "" (init_parts cfg !! 0) = "" -> init_exits cfg = false ->
                  st_success st = 0 /\ wcount counts_success (st_workers st) = 0
}.

End Invariant.

(** ** Whitespace, as [strings.TrimSpace] sees it *)

Definition is_space_rune (c : list ascii) : Prop := map byte_of c ∈ space_runes.

(** A byte string made of whitespace runes only. *)
Definition all_space (l : list ascii) : Prop :=
  exists cs, l = concat cs /\ Forall is_space_rune cs.

Definition starts_space (l : list ascii) : Prop :=
  exists c rest, l = c ++ rest /\ is_space_rune c.

Definition ends_space (l : list ascii) : Prop :=
  exists c rest, l = rest ++ c /\ is_space_rune c.

Definition bytes (s : string) : list ascii := String.list_ascii_of_string s.

(* ================================================================== *)
(** * Lemmas *)

(** ** Schedules *)

Lemma run_sched_rtc m o d st cs st' :
  run_sched m o d st cs = Some st' -> rtc (step m o d) st st'.
Proof.
  revert st. induction cs as [|c cs IH]; intros st H; simpl in H.
  - injection H as <-. apply rtc_refl.
  - destruct (exec_choice m o d st c) as [st1|] eqn:E; [|discriminate].
    eapply rtc_l; [exists c; exact E | apply IH, H].
Qed.

(** ** Counting workers *)

Lemma wcount_insert f (ws : list wstate) (i : nat) w w' :
  ws !! i = Some w ->
  wcount f (<[i := w']> ws) + (if f w then 1 else 0)
  = wcount f ws + (if f w' then 1 else 0).
Proof.
  revert i. induction ws as [|x ws IH]; intros [|i] H; simpl in *; try discriminate.
  - injection H as ->. lia.
  - specialize (IH i H). lia.
Qed.

Lemma wcount_lookup (f : wstate -> bool) (ws : list wstate) (i : nat) w :
  ws !! i = Some w -> (if f w then 1 else 0) <= wcount f ws.
Proof.
  revert i. induction ws as [|x ws IH]; intros [|i] H; simpl in *; try discriminate.
  - injection H as ->. lia.
  - specialize (IH i H). lia.
Qed.

Lemma wcount_replicate f n w :
  wcount f (replicate n w) = if f w then n else 0.
Proof. induction n as [|n IH]; simpl; [by destruct (f w)|rewrite IH; by destruct (f w)]. Qed.

(** ** Slices *)

Lemma go_append_next h s x : hp_next h <= hp_next (go_append h s x).1.
Proof. unfold go_append. destruct (_ <? _); simpl; lia. Qed.

Lemma go_append_arr h s x :
  sl_arr s < hp_next h -> sl_arr (go_append h s x).2 < hp_next (go_append h s x).1.
Proof. unfold go_append. destruct (_ <? _); simpl; lia. Qed.

(** An append does not change what an older header of the same array
    shows, nor anything in another array. *)
Lemma go_append_read_other h s x t :
  sl_arr t < hp_next h ->
  (sl_arr t = sl_arr s -> sl_len t <= sl_len s) ->
  read_slice (go_append h s x).1 t = read_slice h t.
Proof.
  intros Hlt Hle. unfold go_append, read_slice.
  destruct (sl_len s <? sl_cap s); simpl.
  - destruct (decide (sl_arr t = sl_arr s)) as [E|NE].
    + rewrite E, lookup_insert_eq. specialize (Hle E). rewrite <- E.
      destruct (hp_arrays h !! sl_arr t) as [a|]; simpl;
        rewrite take_insert_ge by exact Hle; [reflexivity|].
      by rewrite take_nil.
    + rewrite lookup_insert_ne; auto.
  - rewrite lookup_insert_ne; [reflexivity|lia].
Qed.

Lemma split_loop_arr s ms h sl beg en :
  sl_arr sl < hp_next h ->
  let '(h', sl', _, _) := split_loop s ms h sl beg en in sl_arr sl' < hp_next h'.
Proof.
  revert h sl beg en. induction ms as [|[m0 m1] ms IH]; intros h sl beg en H; simpl; [exact H|].
  destruct (negb (m1 =? 0)).
  - destruct (go_append h sl (substr s beg m0)) as [h1 sl1] eqn:E.
    apply IH. pose proof (go_append_arr h sl (substr s beg m0) H) as A.
    rewrite E in A. exact A.
  - apply IH, H.
Qed.

Lemma regexp_split_arr h s :
  let '(h', sl) := regexp_split h s in sl_arr sl < hp_next h'.
Proof.
  unfold regexp_split, make_slice.
  destruct (String.length s =? 0).
  - pose proof (go_append_arr
      (mk_heap (<[hp_next h := replicate 1 ""]> (hp_arrays h)) (S (hp_next h)))
      (mk_slice (hp_next h) 0 1) "") as A.
    destruct (go_append _ _ _). apply A. simpl. lia.
  - pose proof (split_loop_arr s (find_all_space s)
                  (mk_heap (<[hp_next h := replicate (length (find_all_space s)) ""]>
                           (hp_arrays h)) (S (hp_next h)))
                  (mk_slice (hp_next h) 0 (length (find_all_space s))) 0 0) as L.
    destruct (split_loop _ _ _ _ _ _) as [[[h2 sl2] beg] en].
    specialize (L ltac:(simpl; lia)).
    destruct (negb _); [|exact L].
    pose proof (go_append_arr h2 sl2 (substr s beg (String.length s)) L) as A.
    destruct (go_append _ _ _). exact A.
Qed.

(** ** The invariant holds initially *)

Lemma init_exits_true cfg :
  init_exits cfg = true <->
  cfg_command cfg = "" \/ exists msg, cfg_pattern_err cfg = Some msg.
Proof.
  unfold init_exits. rewrite orb_true_iff, String.eqb_eq.
  destruct (cfg_pattern_err cfg); split; intros [?|?]; eauto;
    try discriminate; destruct_and?; try (right; eauto; fail).
  destruct H; discriminate.
Qed.

Ltac inv_init_tac Hx :=
  first [ lia | discriminate | tauto | (right; eauto; fail) | (left; eauto; fail)
        | apply NoDup_nil_2 | set_solver
        | (exfalso; rewrite Hx in *; eauto; discriminate) ].

Lemma inv_init m cfg : inv m cfg (init cfg).
Proof.
  assert (Hx : cfg_command cfg = "" \/ (exists msg, cfg_pattern_err cfg = Some msg) ->
               init_exits cfg = true) by (intros; apply init_exits_true; auto).
  unfold init. destruct (String.eqb (cfg_command cfg) "") eqn:Ec.
  { apply String.eqb_eq in Ec.
    constructor; simpl; intros; inv_init_tac Hx. }
  pose proof (regexp_split_arr empty_heap (cfg_command cfg)) as Harr.
  assert (Hp : forall h sl, regexp_split empty_heap (cfg_command cfg) = (h, sl) ->
                            read_slice h sl = init_parts cfg)
    by (intros h sl E; unfold init_parts; rewrite E; reflexivity).
  destruct (regexp_split empty_heap (cfg_command cfg)) as [h sl] eqn:Es.
  specialize (Hp h sl eq_refl).
  destruct (cfg_pattern_err cfg) as [msg|] eqn:Ep;
    constructor; simpl; rewrite ?wcount_replicate; simpl; intros; inv_init_tac Hx.
Qed.

(** ** The invariant is preserved by every move *)

Lemma walk_cb_some m files ev p :
  walk_cb m files ev = Some p -> p = ev_path ev /\ m p = true /\ p ∉ files.
Proof.
  unfold walk_cb. destruct (m (ev_path ev)) eqn:Em; simpl; [|discriminate].
  case_bool_decide; simpl; [discriminate|]. intros [= <-]. auto.
Qed.

Lemma combined_output_empty o args :
  combined_output o "" args = ("", Some "exec: no command").
Proof. reflexivity. Qed.

(** Replace the counts of an updated worker list by those of the old one. *)
Ltac wc Hw :=
  repeat match goal with
  | |- context [wcount ?f (<[?i := ?w']> ?ws)] =>
      let E := fresh "E" in
      pose proof (wcount_insert f ws i _ w' Hw) as E; simpl in E;
      let n := fresh "n" in
      set (n := wcount f (<[i := w']> ws)) in *; clearbody n
  end.

Ltac wl Hw :=
  pose proof (wcount_lookup pre_count _ _ _ Hw);
  pose proof (wcount_lookup pre_done _ _ _ Hw);
  pose proof (wcount_lookup busy _ _ _ Hw);
  pose proof (wcount_lookup counts_success _ _ _ Hw);
  simpl in *.

Section Preservation.
Variable m : string -> bool.
Variable o : string -> list string -> cmd_result.
Variable d : nat -> string.
Variable cfg : config.

Lemma inv_main st st' :
  inv m cfg st -> main_move m d st = Some st' -> inv m cfg st'.
Proof.
  intros [] E. unfold main_move in E.
  destruct (st_main st) as [[|ev evs]| | |c] eqn:M; try discriminate.
  - injection E as <-. constructor; simpl; rewrite ?M in *; auto. intros ? [=].
  - destruct (walk_cb m (st_files st) ev) as [p|] eqn:Wc.
    + destruct (length (st_input st) <? input_capacity); [|discriminate].
      injection E as <-. apply walk_cb_some in Wc as (-> & Hm & Hnot).
      constructor; simpl; rewrite ?length_app; simpl; try lia; auto.
      * intros ? [=].
      * apply NoDup_app. split; [auto|split; [|apply NoDup_singleton]].
        intros x Hx ->%list_elem_of_singleton. apply Hnot, inv_files0, Hx.
      * intros q. rewrite elem_of_app, elem_of_union, list_elem_of_singleton,
                    elem_of_singleton, inv_files0. tauto.
      * intros e He. apply inv_suffix0. rewrite elem_of_cons. auto.
      * intros q [Hq| ->%list_elem_of_singleton]%elem_of_app; [auto|].
        split; [exact Hm|]. exists ev. split; [|reflexivity].
        apply inv_suffix0. rewrite elem_of_cons. auto.
    + injection E as <-. constructor; simpl; auto; [intros ? [=]|].
      intros e He. apply inv_suffix0. rewrite elem_of_cons. auto.
  - destruct (st_wg st) eqn:W; [|discriminate].
    injection E as <-. constructor; simpl; rewrite ?W; auto. intros ? [=].
  - injection E as <-. constructor; simpl; auto.
    intros c [= <-]. auto.
Qed.

Ltac close_inv Hw Hl :=
  constructor; simpl; wc Hw;
  repeat match goal with
         | H : st_input ?s = [] |- context [st_input ?s] => rewrite H
         | H : st_input ?s = _ :: _ |- context [st_input ?s] => rewrite H
         | H : st_wg ?s = 0 |- context [st_wg ?s] => rewrite H
         | H : st_wg ?s = S _ |- context [st_wg ?s] => rewrite H
         end;
  simpl in *; auto; try lia;
  try (match goal with |- context [st_main ?s] =>
         destruct (st_main s) eqn:?; simpl in *; auto; lia end);
  try (intros ?c ?Hc; exfalso; exact (Hl _ Hc)).

Lemma inv_worker st st' i :
  inv m cfg st -> (forall c, st_main st <> MExited c) ->
  worker_move o d st i = Some st' -> inv m cfg st'.
Proof.
  intros [] Hl E. unfold worker_move in E.
  destruct (st_workers st !! i) as [w|] eqn:Hw; [|discriminate].
  wl Hw.
  destruct w as [|p|p cp t0|p cp t0 out failed|p cp t0 out|r|r|].
  - destruct (st_input st) as [|p rest] eqn:Hin.
    + destruct (st_input_closed st); [|discriminate].
      injection E as <-. close_inv Hw Hl.
      intros A1 A2. destruct (inv_fail_only0 A1 A2). split; lia.
    + injection E as <-. simpl in *. close_inv Hw Hl.
      intros A1 A2. destruct (inv_fail_only0 A1 A2). split; lia.
  - destruct (go_append (st_heap st) (st_parts st) p) as [h' cp] eqn:Ga.
    injection E as <-.
    pose proof (go_append_next (st_heap st) (st_parts st) p) as Hn.
    pose proof (go_append_read_other (st_heap st) (st_parts st) p (st_parts st)
                  inv_parts_arr0 (fun _ => le_n _)) as Hr.
    rewrite Ga in Hn, Hr. simpl in Hn, Hr.
    close_inv Hw Hl.
    + rewrite Hr. exact inv_parts0.
    + intros A1 A2. destruct (inv_fail_only0 A1 A2). split; lia.
  - set (path := default "" (read_slice (st_heap st) (st_parts st) !! 0)) in E.
    destruct (combined_output o path (read_slice (st_heap st) cp)) as [out err] eqn:Co.
    injection E as <-. close_inv Hw Hl.
    intros A1 A2. destruct (inv_fail_only0 A1 A2) as [Hs Hc]. split; [lia|].
    destruct inv_parts0 as [Hp|Hp]; [|congruence].
    assert (path = "") as Hpath by (unfold path; rewrite Hp; exact A1).
    rewrite Hpath, combined_output_empty in Co. injection Co as <- <-. simpl. lia.
  - destruct failed; injection E as <-; close_inv Hw Hl.
    + intros A1 A2. destruct (inv_fail_only0 A1 A2). split; lia.
    + intros A1 A2. destruct (inv_fail_only0 A1 A2). lia.
  - injection E as <-. close_inv Hw Hl.
    intros A1 A2. destruct (inv_fail_only0 A1 A2). split; lia.
  - destruct (st_wg st) as [|n] eqn:W.
    + simpl in *. lia.
    + injection E as <-. close_inv Hw Hl.
      intros A1 A2. destruct (inv_fail_only0 A1 A2). split; lia.
  - destruct (st_output_closed st).
    + injection E as <-. simpl in *. constructor; simpl; auto. intros _. lia.
    + destruct (st_printer st); [|discriminate].
      injection E as <-. close_inv Hw Hl.
      intros A1 A2. destruct (inv_fail_only0 A1 A2). split; lia.
  - discriminate.
Qed.

Lemma live_not_exited st : live st = true -> forall c, st_main st <> MExited c.
Proof.
  unfold live. intros L c M. rewrite M in L. destruct (st_panicked st); discriminate.
Qed.

Lemma inv_step st st' : inv m cfg st -> step m o d st st' -> inv m cfg st'.
Proof.
  intros I [c E]. unfold exec_choice in E.
  destruct (live st) eqn:L; [|discriminate].
  pose proof (live_not_exited st L) as Hl.
  destruct c as [|i| | | |].
  - exact (inv_main st st' I E).
  - exact (inv_worker st st' i I Hl E).
  - destruct (st_printer st); [discriminate|]. injection E as <-.
    destruct I; constructor; simpl; auto.
  - destruct (st_printer st); [|discriminate]. injection E as <-.
    destruct I; constructor; simpl; auto.
  - destruct (st_printer st); [|discriminate].
    destruct (st_output_closed st); [|discriminate]. injection E as <-.
    destruct I; constructor; simpl; auto.
  - injection E as <-. destruct I; constructor; simpl; auto.
Qed.

Lemma inv_rtc st st' : inv m cfg st -> rtc (step m o d) st st' -> inv m cfg st'.
Proof.
  intros I R. induction R as [x|x y z S R IH]; [exact I|].
  apply IH. exact (inv_step x y I S).
Qed.

Lemma inv_reachable st : reachable m o d cfg st -> inv m cfg st.
Proof. apply inv_rtc, inv_init. Qed.

End Preservation.

(** ** [TrimSpace] *)

Lemma prefixb_app e c rest : map byte_of c = e -> prefixb e (c ++ rest) = true.
Proof.
  intros <-. induction c as [|x c IH]; simpl; [reflexivity|].
  rewrite Nat.eqb_refl, IH. reflexivity.
Qed.

Lemma prefixb_split e l :
  prefixb e l = true -> exists c rest, l = c ++ rest /\ map byte_of c = e.
Proof.
  revert l. induction e as [|n e IH]; intros l H.
  - exists [], l. auto.
  - destruct l as [|x l]; simpl in H; [discriminate|].
    apply andb_true_iff in H as [Hn H]. apply Nat.eqb_eq in Hn.
    destruct (IH l H) as (c & rest & -> & <-).
    exists (x :: c), rest. simpl. rewrite Hn. auto.
Qed.

Lemma filter_prefixb_nil (rs : list (list nat)) l e :
  filter (fun e => prefixb e l = true) rs = [] -> e ∈ rs -> prefixb e l = false.
Proof.
  induction rs as [|r rs IH]; intros Hf He; [inversion He|].
  rewrite filter_cons in Hf. destruct (decide (prefixb r l = true)) as [T|F];
    [discriminate|].
  apply elem_of_cons in He as [->|He]; [by apply not_true_is_false|].
  apply IH; auto.
Qed.

Lemma space_prefix_some rs l n :
  space_prefix rs l = Some n ->
  exists c rest, l = c ++ rest /\ map byte_of c ∈ rs /\ length c = n.
Proof.
  unfold space_prefix.
  destruct (filter (fun e => prefixb e l = true) rs) as [|e es] eqn:F; [discriminate|].
  intros [= <-].
  assert (He : e ∈ filter (fun e => prefixb e l = true) rs) by (rewrite F; left).
  apply list_elem_of_filter in He as [Hp Hin].
  destruct (prefixb_split e l Hp) as (c & rest & -> & Hc).
  exists c, rest. rewrite Hc. split; [reflexivity|split; [exact Hin|]].
  rewrite <- Hc. symmetry. apply length_map.
Qed.

Lemma space_prefix_none rs l :
  space_prefix rs l = None ->
  ~ exists c rest, l = c ++ rest /\ map byte_of c ∈ rs.
Proof.
  unfold space_prefix.
  destruct (filter (fun e => prefixb e l = true) rs) as [|e es] eqn:F; [|discriminate].
  intros _ (c & rest & -> & Hin).
  pose proof (filter_prefixb_nil rs (c ++ rest) _ F Hin) as P.
  rewrite prefixb_app in P; [discriminate|reflexivity].
Qed.

Lemma trim_left_go_spec rs fuel l :
  (forall e, e ∈ rs -> e <> []) -> length l <= fuel ->
  exists cs, l = concat cs ++ trim_left_go rs fuel l
             /\ Forall (fun c => map byte_of c ∈ rs) cs
             /\ space_prefix rs (trim_left_go rs fuel l) = None.
Proof.
  intros Hne. revert l. induction fuel as [|f IH]; intros l Hl; simpl.
  - destruct l; simpl in Hl; [|lia].
    exists []. split; [reflexivity|split; [constructor|]].
    unfold space_prefix.
    destruct (filter (fun e => prefixb e [] = true) rs) as [|e es] eqn:F; [reflexivity|].
    assert (He : e ∈ filter (fun e => prefixb e [] = true) rs) by (rewrite F; left).
    apply list_elem_of_filter in He as [Hp Hin].
    destruct e; [by destruct (Hne [] Hin)|discriminate].
  - destruct (space_prefix rs l) as [n|] eqn:Sp.
    + destruct (space_prefix_some rs l n Sp) as (c & rest & -> & Hin & Hlen).
      assert (c <> []) by (intros ->; exact (Hne [] Hin eq_refl)).
      assert (Hd : drop n (c ++ rest) = rest)
        by (rewrite <- Hlen, drop_app_length; reflexivity).
      rewrite Hd.
      assert (length rest <= f).
      { rewrite length_app in Hl. destruct c; [congruence|simpl in Hl; lia]. }
      destruct (IH rest ltac:(assumption)) as (cs & Eq & Fa & N).
      exists (c :: cs). simpl. rewrite <- app_assoc, <- Eq.
      split; [reflexivity|split; [constructor; assumption|exact N]].
    + exists []. simpl. split; [reflexivity|split; [constructor|exact Sp]].
Qed.

Lemma space_runes_nonempty e : e ∈ space_runes -> e <> [].
Proof.
  intros He. repeat (apply elem_of_cons in He as [->|He]; [discriminate|]).
  inversion He.
Qed.

Lemma rev_space_runes_nonempty e : e ∈ map reverse space_runes -> e <> [].
Proof.
  intros He. apply list_elem_of_In, in_map_iff in He as (x & <- & Hx).
  apply list_elem_of_In, space_runes_nonempty in Hx.
  intros E. apply Hx. rewrite <- (reverse_involutive x), E. reflexivity.
Qed.

Lemma map_reverse {A B} (f : A -> B) (l : list A) :
  map f (reverse l) = reverse (map f l).
Proof.
  induction l as [|x l IH]; [reflexivity|].
  rewrite reverse_cons, map_app, IH. simpl. rewrite reverse_cons. reflexivity.
Qed.

Lemma in_map_reverse (x : list nat) rs : reverse x ∈ map reverse rs <-> x ∈ rs.
Proof.
  rewrite !list_elem_of_In, in_map_iff. split.
  - intros (y & E & Hy). apply (f_equal reverse) in E.
    rewrite !reverse_involutive in E. subst. exact Hy.
  - intros Hx. exists x. auto.
Qed.

Lemma reverse_concat {A} (cs : list (list A)) :
  reverse (concat cs) = concat (reverse (map reverse cs)).
Proof.
  induction cs as [|c cs IH]; [reflexivity|].
  simpl. rewrite reverse_app, IH, reverse_cons, concat_app. simpl.
  rewrite app_nil_r. reflexivity.
Qed.

Lemma trim_left_spec l :
  exists pre, l = pre ++ trim_left l /\ all_space pre /\ ~ starts_space (trim_left l).
Proof.
  unfold trim_left.
  destruct (trim_left_go_spec space_runes (length l) l space_runes_nonempty (le_n _))
    as (cs & Eq & Fa & N).
  exists (concat cs). split; [exact Eq|split].
  - exists cs. split; [reflexivity|exact Fa].
  - intros (c & rest & E & Hc). apply (space_prefix_none _ _ N). eauto.
Qed.

Lemma trim_right_spec l :
  exists suf, l = trim_right l ++ suf /\ all_space suf /\ ~ ends_space (trim_right l).
Proof.
  unfold trim_right.
  assert (Hlen : length (reverse l) <= length l) by (rewrite length_reverse; lia).
  destruct (trim_left_go_spec (map reverse space_runes) (length l) (reverse l)
              rev_space_runes_nonempty Hlen) as (cs & Eq & Fa & N).
  set (t := trim_left_go (map reverse space_runes) (length l) (reverse l)) in *.
  exists (reverse (concat cs)). split; [|split].
  - rewrite <- reverse_app, <- Eq, reverse_involutive. reflexivity.
  - exists (reverse (map reverse cs)). split; [apply reverse_concat|].
    apply Forall_reverse, Forall_map. eapply Forall_impl; [exact Fa|].
    intros c Hc. unfold is_space_rune. rewrite map_reverse.
    apply in_map_reverse. rewrite reverse_involutive. exact Hc.
  - intros (c & rest & E & Hc). apply (space_prefix_none _ _ N).
    exists (reverse c), (reverse rest). split.
    + rewrite <- reverse_app, <- E, reverse_involutive. reflexivity.
    + rewrite map_reverse. apply in_map_reverse. exact Hc.
Qed.

Lemma go_trim_space_spec s :
  exists pre suf,
    bytes s = pre ++ bytes (go_trim_space s) ++ suf /\
    all_space pre /\ all_space suf /\
    ~ starts_space (bytes (go_trim_space s)) /\ ~ ends_space (bytes (go_trim_space s)).
Proof.
  unfold go_trim_space, bytes. rewrite String.list_ascii_of_string_of_list_ascii.
  set (l := String.list_ascii_of_string s).
  destruct (trim_left_spec l) as (pre & E1 & P1 & N1).
  destruct (trim_right_spec (trim_left l)) as (suf & E2 & P2 & N2).
  exists pre, suf. split; [|split; [exact P1|split; [exact P2|split; [|exact N2]]]].
  - rewrite E1 at 1. rewrite E2 at 1. reflexivity.
  - intros (c & rest & E & Hc). apply N1. exists c, (rest ++ suf).
    rewrite E2, E, <- app_assoc. auto.
Qed.

(** ** Appends and [Split] keep what is already in a slice *)

Lemma roundupsize_ge n : n <= roundupsize n.
Proof.
  unfold roundupsize.
  destruct (filter (fun c => n <= c) size_classes) as [|c cs] eqn:F.
  - assert (Hb : 8192 = S 8191) by reflexivity.
    generalize dependent 8192. generalize 8191. intros a b Hb. subst b.
    pose proof (Nat.div_mod (n + a) (S a) ltac:(lia)).
    pose proof (Nat.mod_upper_bound (n + a) (S a) ltac:(lia)). nia.
  - assert (Hc : c ∈ filter (fun c => n <= c) size_classes) by (rewrite F; left).
    apply list_elem_of_filter in Hc as [Hc _]. exact Hc.
Qed.

Lemma grow_loop_ge f c n : n <= c + f -> n <= grow_loop f c n.
Proof.
  revert c. induction f as [|f IH]; intros c H; cbn [grow_loop]; [lia|].
  destruct (c <? n) eqn:L; [|apply Nat.ltb_ge in L; exact L].
  apply IH. assert (192 <= (c + 3 * 256) / 4) by (apply Nat.div_le_lower_bound; lia).
  lia.
Qed.

Lemma growcap_ge old newlen : newlen <= growcap old newlen.
Proof.
  unfold growcap, string_size.
  set (nc := if 2 * old <? newlen then newlen
             else if old <? 256 then 2 * old else grow_loop newlen old newlen).
  assert (newlen <= nc).
  { unfold nc. destruct (2 * old <? newlen) eqn:A; [lia|].
    apply Nat.ltb_ge in A. destruct (old <? 256); [lia|].
    apply grow_loop_ge. lia. }
  pose proof (roundupsize_ge (nc * 16)).
  assert (nc <= roundupsize (nc * 16) / 16) by (apply Nat.div_le_lower_bound; lia).
  lia.
Qed.

Lemma go_append_wf h s x :
  slice_wf h s ->
  slice_wf (go_append h s x).1 (go_append h s x).2 /\
  read_slice (go_append h s x).1 (go_append h s x).2 = read_slice h s ++ [x].
Proof.
  intros (Hlt & Hle & a & Ha & Hlen). unfold go_append, read_slice. rewrite Ha. simpl.
  destruct (sl_len s <? sl_cap s) eqn:L; simpl.
  - apply Nat.ltb_lt in L. rewrite lookup_insert_eq. split.
    + unfold slice_wf; simpl. split; [exact Hlt|split; [lia|]].
      eexists. split; [apply lookup_insert_eq|].
      rewrite length_insert. exact Hlen.
    + rewrite (take_S_r _ _ x).
      * rewrite take_insert_ge; auto.
      * apply list_lookup_insert_eq. lia.
  - apply Nat.ltb_ge in L.
    pose proof (growcap_ge (sl_cap s) (S (sl_len s))).
    rewrite lookup_insert_eq. split.
    + unfold slice_wf; simpl. split; [lia|split; [lia|]].
      eexists. split; [apply lookup_insert_eq|].
      rewrite !length_app, length_take. simpl. rewrite length_replicate. lia.
    + rewrite take_app, take_take, length_take, !Nat.min_r by lia.
      rewrite Hlen. replace (S (sl_len s) - sl_cap s) with 1 by lia. reflexivity.
Qed.

Lemma split_loop_wf s ms h sl beg en :
  slice_wf h sl ->
  let '(h', sl', _, _) := split_loop s ms h sl beg en in
  slice_wf h' sl' /\ exists rest, read_slice h' sl' = read_slice h sl ++ rest.
Proof.
  revert h sl beg en. induction ms as [|[m0 m1] ms IH]; intros h sl beg en W; simpl.
  - split; [exact W|]. exists []. by rewrite app_nil_r.
  - destruct (negb (m1 =? 0)).
    + destruct (go_append_wf h sl (substr s beg m0) W) as [W1 R1].
      destruct (go_append h sl (substr s beg m0)) as [h1 sl1]. simpl in *.
      specialize (IH h1 sl1 m1 m0 W1).
      destruct (split_loop s ms h1 sl1 m1 m0) as [[[h2 sl2] b2] e2].
      destruct IH as [W2 [rest R2]]. split; [exact W2|].
      exists (substr s beg m0 :: rest). rewrite R2, R1, <- app_assoc. reflexivity.
    + apply IH, W.
Qed.

Lemma space_runs_some s i b :
  b < i -> exists e ms, space_runs s i (Some b) = (b, e) :: ms /\ b < e.
Proof.
  revert i. induction s as [|c s IH]; intros i H; simpl.
  - eauto.
  - destruct (is_re_space c); [apply IH; lia|eauto].
Qed.

(** A command that starts with whitespace splits into parts whose first
    one is empty. *)
Lemma split_head_empty c s' :
  is_re_space c = true ->
  let '(h, sl) := regexp_split empty_heap (String.String c s') in
  read_slice h sl !! 0 = Some "".
Proof.
  intros Hc. unfold regexp_split. simpl String.length. cbv iota beta.
  change (S (String.length s') =? 0) with false. cbv iota.
  unfold find_all_space. simpl space_runs. rewrite Hc.
  destruct (space_runs_some s' 1 0 ltac:(lia)) as (e & ms & -> & He).
  set (k := length ((0, e) :: ms)).
  assert (W0 : slice_wf (mk_heap {[0 := replicate k ""]} 1) (mk_slice 0 0 k)).
  { split; [simpl; lia|split; [simpl; lia|]]. eexists. split.
    - simpl. apply lookup_insert_eq.
    - simpl. by rewrite length_replicate. }
  unfold make_slice. simpl hp_next. simpl hp_arrays. rewrite insert_empty.
  simpl split_loop. destruct (negb (e =? 0)) eqn:Ne;
    [|apply negb_false_iff, Nat.eqb_eq in Ne; lia].
  destruct (go_append_wf _ _ (substr (String.String c s') 0 0) W0) as [W1 R1].
  destruct (go_append _ _ _) as [h1 sl1]. simpl in W1, R1.
  pose proof (split_loop_wf (String.String c s') ms h1 sl1 e 0 W1) as L.
  destruct (split_loop _ _ _ _ _ _) as [[[h2 sl2] b2] e2].
  destruct L as [W2 [rest R2]].
  assert (Hr : read_slice h1 sl1 = [""]).
  { rewrite R1. unfold read_slice. simpl. rewrite lookup_singleton_eq. reflexivity. }
  destruct (negb (e2 =? _)).
  - destruct (go_append_wf h2 sl2 (substr (String.String c s') b2
                (S (String.length s'))) W2) as [_ R3].
    destruct (go_append _ _ _) as [h3 sl3]. simpl in R3.
    rewrite R3, R2, Hr. reflexivity.
  - rewrite R2, Hr. reflexivity.
Qed.

(** ** Counters once the walk has drained *)

Lemma wcount_mono (f g : wstate -> bool) ws :
  (forall w, f w = true -> g w = true) -> wcount f ws <= wcount g ws.
Proof.
  intros Hfg. induction ws as [|w ws IH]; simpl; [lia|].
  destruct (f w) eqn:F; [rewrite (Hfg w F)|destruct (g w)]; lia.
Qed.

Lemma inv_drained_counts m cfg st :
  inv m cfg st ->
  (st_main st = MClosed \/ exists c, st_main st = MExited c) ->
  st_success st + st_fail st = length (st_dispatched st).
Proof.
  intros I Hm. destruct I.
  assert (W : st_wg st = 0).
  { destruct Hm as [Hm|[c Hm]]; rewrite Hm in inv_drained0; exact inv_drained0. }
  assert (Le : wcount pre_count (st_workers st) <= wcount pre_done (st_workers st)).
  { apply wcount_mono. intros [] ?; simpl; auto. }
  lia.
Qed.

(** A run that ends normally exits with [exit_code] of the failure counter,
    unless [main] stopped before the walk. *)
Lemma inv_exit_normal m cfg st c :
  inv m cfg st -> init_exits cfg = false -> st_main st = MExited c ->
  c = exit_code (st_fail st).
Proof.
  intros I He Hm. destruct (inv_exit m cfg st I c Hm) as [->|E]; [done|].
  congruence.
Qed.

(* ------------------------------------------------------------------ *)
(** * The claims *)

(** C2: in every reachable state in which [main] has passed [wg.Wait()]
    (it is at [MClosed] or has exited), the success counter plus the
    failure counter equals the number of dispatched paths. *)
Theorem C2_counters_sum_to_dispatched m o d cfg st :
  reachable m o d cfg st ->
  (st_main st = MClosed \/ exists c, st_main st = MExited c) ->
  st_success st + st_fail st = length (st_dispatched st).
Proof.
  intros R Hm. apply (inv_drained_counts m cfg st); [|exact Hm].
  apply (inv_reachable m o d cfg), R.
Qed.

Lemma C2_witness :
  let st := after default_match echo_last secs cfg_one sched_send_first in
  (reachable default_match echo_last secs cfg_one st /\
   (st_main st = MClosed \/ exists c, st_main st = MExited c)) /\
  st_success st + st_fail st = length (st_dispatched st).
Proof.
  intros st.
  assert (R : reachable default_match echo_last secs cfg_one st).
  { apply (run_sched_rtc _ _ _ _ sched_send_first). vm_compute. reflexivity. }
  assert (M : st_main st = MClosed \/ exists c, st_main st = MExited c).
  { right. exists 0. vm_compute. reflexivity. }
  split; [split; assumption|].
  exact (C2_counters_sum_to_dispatched _ _ _ _ st R M).
Defined.

(** C3: in every reachable state the list of paths sent on [input] has no
    duplicates, whatever the walk yields. *)
Theorem C3_no_duplicate_dispatch m o d cfg st :
  reachable m o d cfg st -> NoDup (st_dispatched st).
Proof. intros R. apply (inv_nodup m cfg), (inv_reachable m o d cfg), R. Qed.

Lemma C3_witness :
  let st := after default_match echo_last secs cfg_dup [CMain; CMain; CMain] in
  reachable default_match echo_last secs cfg_dup st /\
  st_dispatched st = ["FooTest.php"] /\ NoDup (st_dispatched st).
Proof.
  intros st.
  assert (R : reachable default_match echo_last secs cfg_dup st).
  { apply (run_sched_rtc _ _ _ _ [CMain; CMain; CMain]). vm_compute. reflexivity. }
  split; [exact R|split; [vm_compute; reflexivity|]].
  exact (C3_no_duplicate_dispatch _ _ _ _ st R).
Defined.

(** C1: the exit status is not determined by the failure counter alone.
    With one matching file whose command succeeds, the worker's deferred
    [wg.Done()] runs before it sends its report on [output]; [main] can then
    return from [wg.Wait()] and close [output], and the send panics: the
    process exits with status 2 although the failure counter is 0. *)
Theorem C1_exit_two_with_no_failure :
  let st := after default_match echo_last secs cfg_one sched_close_first in
  reachable default_match echo_last secs cfg_one st /\
  st_main st = MClosed /\ st_fail st = 0 /\ st_success st = 1 /\
  exit_status st = Some 2.
Proof.
  intros st. split.
  - apply (run_sched_rtc _ _ _ _ sched_close_first). vm_compute. reflexivity.
  - vm_compute. auto.
Qed.

(** C4: the outstanding-work counter reaches zero while a worker still
    holds an unsent report: after the worker's deferred [wg.Done()], the
    counter is 0 and [input] is empty, yet worker 0 is about to send on
    [output], and [main] may already go on to close the channels. *)
Theorem C4_counter_zero_before_report :
  let st := after default_match echo_last secs cfg_one sched_run_one in
  reachable default_match echo_last secs cfg_one st /\
  st_wg st = 0 /\ st_input st = [] /\ st_main st = MWait /\
  (exists r, st_workers st !! 0 = Some (WSend r)) /\
  (exists st', exec_choice default_match echo_last secs st CMain = Some st' /\
               st_main st' = MClosed /\ st_output_closed st' = true /\
               st_workers st' = st_workers st).
Proof.
  intros st. split.
  - apply (run_sched_rtc _ _ _ _ sched_run_one). vm_compute. reflexivity.
  - vm_compute. split; [reflexivity|]. split; [reflexivity|].
    split; [reflexivity|]. split; [eexists; reflexivity|].
    eexists. split; [reflexivity|]. auto.
Qed.

(** C7: [append(parts[:], path)] writes into the spare capacity of the
    shared [parts] array.  With the command "a b c" ([parts] has length 3,
    capacity 4) and two workers, worker 0 builds its arguments for
    "XTest.php", worker 1 then builds its own for "YTest.php" in the same
    array, and worker 0 runs and records the command with "YTest.php" as its
    last argument: the oracle [echo_last] echoes "YTest.php" back. *)
Theorem C7_shared_parts_array :
  let st := after default_match echo_last secs cfg_abc sched_abc in
  reachable default_match echo_last secs cfg_abc st /\
  exists cp, st_workers st !! 0 = Some (WCount "XTest.php" cp 0 "YTest.php" false) /\
             read_slice (st_heap st) cp = ["a"; "b"; "c"; "YTest.php"].
Proof.
  intros st. split.
  - apply (run_sched_rtc _ _ _ _ sched_abc). vm_compute. reflexivity.
  - eexists. vm_compute. split; reflexivity.
Qed.

(** C9: the walk callback does not look at [info.IsDir()].  Under the root
    ".", a directory named "FooTest.php" matches the default pattern
    "Test.php$" and is sent on [input]. *)
Theorem C9_directory_dispatched :
  let st := after default_match echo_last secs cfg_dir [CMain; CMain] in
  reachable default_match echo_last secs cfg_dir st /\
  cfg_walk cfg_dir = [mk_event "." (Some true) false;
                      mk_event "FooTest.php" (Some true) false] /\
  st_dispatched st = ["FooTest.php"].
Proof.
  intros st. split.
  - apply (run_sched_rtc _ _ _ _ [CMain; CMain]). vm_compute. reflexivity.
  - vm_compute. split; reflexivity.
Qed.

(** The state of a worker's [run] is kept through the moves of the others. *)
Lemma live_set_workers ws st : live (set_workers ws st) = live st.
Proof. reflexivity. Qed.

Lemma live_set_fail n st : live (set_fail n st) = live st.
Proof. reflexivity. Qed.

(** C5 (amended): when the executable cannot be started, three moves of the
    worker count one failure (and no success), leave the process running,
    and produce a report whose output section is empty: the launch error
    text is not in it; the other workers are not touched. *)
Theorem C5_launch_failure_counted m o d st i p cp t0 msg :
  live st = true ->
  st_workers st !! i = Some (WExec p cp t0) ->
  default "" (read_slice (st_heap st) (st_parts st) !! 0) <> "" ->
  o (default "" (read_slice (st_heap st) (st_parts st) !! 0))
    (read_slice (st_heap st) cp) = LaunchErr msg ->
  exists st',
    run_sched m o d st [CWorker i; CWorker i; CWorker i] = Some st' /\
    st_fail st' = S (st_fail st) /\ st_success st' = st_success st /\
    live st' = true /\
    st_workers st' !! i =
      Some (WDone (format_report (read_slice (st_heap st) cp) ""
                                 (d (st_now st - t0)))) /\
    (forall j, j <> i -> st_workers st' !! j = st_workers st !! j).
Proof.
  intros L Hw Hp Ho.
  assert (Hi : i < length (st_workers st)) by (eapply lookup_lt_Some; eauto).
  eexists. split.
  - cbn [run_sched]. unfold exec_choice at 1. rewrite L.
    unfold worker_move at 1. rewrite Hw. unfold combined_output.
    destruct (String.eqb_spec (default "" (read_slice (st_heap st) (st_parts st) !! 0)) "")
      as [E|_]; [contradiction|]. rewrite Ho.
    unfold exec_choice at 1. rewrite live_set_workers, L.
    unfold worker_move at 1. cbn [st_workers set_workers].
    rewrite list_lookup_insert_eq by exact Hi.
    unfold exec_choice at 1. rewrite live_set_workers, live_set_fail, live_set_workers, L.
    unfold worker_move at 1. cbn [st_workers set_workers set_fail].
    rewrite list_lookup_insert_eq by (rewrite length_insert; exact Hi).
    reflexivity.
  - cbn. split; [reflexivity|]. split; [reflexivity|]. split; [exact L|].
    split.
    + rewrite list_lookup_insert_eq by (rewrite !length_insert; exact Hi). reflexivity.
    + intros j Hj. rewrite !list_lookup_insert_ne by congruence. reflexivity.
Qed.

Lemma C5_witness :
  let st := after default_match missing_exe secs cfg_missing
                  [CMain; CMain; CWorker 0; CWorker 0] in
  (live st = true /\
   st_workers st !! 0 = Some (WExec "FooTest.php" (mk_slice 2 2 2) 0) /\
   default "" (read_slice (st_heap st) (st_parts st) !! 0) <> "" /\
   missing_exe (default "" (read_slice (st_heap st) (st_parts st) !! 0))
     (read_slice (st_heap st) (mk_slice 2 2 2)) = LaunchErr missing_msg) /\
  exists st',
    run_sched default_match missing_exe secs st [CWorker 0; CWorker 0; CWorker 0] = Some st' /\
    st_fail st' = S (st_fail st) /\ st_success st' = st_success st /\
    live st' = true /\
    st_workers st' !! 0 =
      Some (WDone (format_report (read_slice (st_heap st) (mk_slice 2 2 2)) ""
                                 (secs (st_now st - 0)))) /\
    (forall j, j <> 0 -> st_workers st' !! j = st_workers st !! j).
Proof.
  intros st.
  assert (H1 : live st = true) by (vm_compute; reflexivity).
  assert (H2 : st_workers st !! 0 = Some (WExec "FooTest.php" (mk_slice 2 2 2) 0))
    by (vm_compute; reflexivity).
  assert (H3 : default "" (read_slice (st_heap st) (st_parts st) !! 0) <> "")
    by (vm_compute; discriminate).
  assert (H4 : missing_exe (default "" (read_slice (st_heap st) (st_parts st) !! 0))
                 (read_slice (st_heap st) (mk_slice 2 2 2)) = LaunchErr missing_msg)
    by (vm_compute; reflexivity).
  split; [auto|].
  exact (C5_launch_failure_counted default_match missing_exe secs st 0
           "FooTest.php" (mk_slice 2 2 2) 0 missing_msg H1 H2 H3 H4).
Defined.

(** C5, counterexample: with an executable that does not exist, the
    worker counts a failure and its report does not contain the launch
    error text anywhere. *)
Lemma C5_counterexample :
  let st := after default_match missing_exe secs cfg_missing
                  [CMain; CMain; CWorker 0; CWorker 0; CWorker 0; CWorker 0; CWorker 0] in
  reachable default_match missing_exe secs cfg_missing st /\
  st_fail st = 1 /\
  exists r, st_workers st !! 0 = Some (WDone r) /\
            String.index 0 missing_msg r = None.
Proof.
  intros st. split.
  - apply (run_sched_rtc _ _ _ _
             [CMain; CMain; CWorker 0; CWorker 0; CWorker 0; CWorker 0; CWorker 0]).
    vm_compute. reflexivity.
  - split; [vm_compute; reflexivity|]. eexists. split; vm_compute; reflexivity.
Qed.

Lemma init_exits_false cmd pe threads walk :
  cmd <> "" -> pe = None -> init_exits (mk_config cmd pe threads walk) = false.
Proof.
  intros Hc ->. unfold init_exits. simpl.
  destruct (String.eqb_spec cmd ""); [contradiction|reflexivity].
Qed.

(** C6: an inaccessible root is not fatal.  When [os.Lstat] fails on the
    root, [filepath.Walk] calls the callback once, with the root path, a
    nil [info] and the error.  The callback never calls [info.IsDir()]
    (which panics on a nil [info] and ends the process with status 2, as
    the earlier revision of the callback did), so it runs on.  If the root
    path does not match the pattern, nothing is dispatched, every way the
    run can end has exit status 0, and the run can end with status 0. *)
Theorem C6_inaccessible_root m o d root cmd threads :
  cmd <> "" -> m root = false ->
  go_walk root None = [mk_event root None true] /\
  (forall st, reachable m o d (mk_config cmd None threads (go_walk root None)) st ->
     st_dispatched st = [] /\ forall c, exit_status st = Some c -> c = 0) /\
  (exists st, reachable m o d (mk_config cmd None threads (go_walk root None)) st /\
              exit_status st = Some 0).
Proof.
  intros Hc Hm. split; [reflexivity|]. split.
  - intros st R. pose proof (inv_reachable m o d _ st R) as I.
    assert (D : st_dispatched st = []).
    { destruct (st_dispatched st) as [|p ps] eqn:E; [reflexivity|].
      destruct (inv_walked m _ st I p) as [Hp [ev [Hev Hpe]]];
        [rewrite E; left|].
      simpl in Hev. apply list_elem_of_singleton in Hev. subst ev.
      simpl in Hpe. subst p. congruence. }
    split; [exact D|]. intros c Hs. unfold exit_status in Hs.
    destruct (st_panicked st) eqn:P.
    { pose proof (inv_panic m _ st I P) as Hl. rewrite D in Hl. simpl in Hl. lia. }
    destruct (st_main st) as [| | |k] eqn:M; try discriminate.
    injection Hs as <-.
    rewrite (inv_exit_normal m _ st k I (init_exits_false _ _ _ _ Hc eq_refl) M).
    pose proof (inv_count m _ st I) as Hn. rewrite D in Hn. simpl in Hn.
    assert (F : st_fail st = 0) by lia. rewrite F. reflexivity.
  - assert (E : String.eqb cmd "" = false) by (destruct (String.eqb_spec cmd ""); congruence).
    assert (X : exists st, run_sched m o d
                  (init (mk_config cmd None threads (go_walk root None)))
                  [CMain; CMain; CMain; CMain] = Some st /\ exit_status st = Some 0).
    { unfold init. cbn [cfg_command cfg_pattern_err cfg_walk cfg_threads]. rewrite E.
      destruct (regexp_split empty_heap cmd) as [h sl].
      cbn [run_sched]. unfold exec_choice, main_move, walk_cb. cbn.
      rewrite Hm. cbn. eexists. split; reflexivity. }
    destruct X as [st [X S0]]. exists st. split; [|exact S0].
    apply (run_sched_rtc _ _ _ _ _ _ X).
Qed.

Lemma C6_witness :
  ("phpunit" <> "" /\ default_match "/nonexistent" = false) /\
  go_walk "/nonexistent" None = [mk_event "/nonexistent" None true] /\
  (forall st, reachable default_match echo_last secs
                (mk_config "phpunit" None 1 (go_walk "/nonexistent" None)) st ->
     st_dispatched st = [] /\ forall c, exit_status st = Some c -> c = 0) /\
  (exists st, reachable default_match echo_last secs
                (mk_config "phpunit" None 1 (go_walk "/nonexistent" None)) st /\
              exit_status st = Some 0).
Proof.
  assert (H1 : "phpunit" <> "") by discriminate.
  assert (H2 : default_match "/nonexistent" = false) by (vm_compute; reflexivity).
  split; [split; assumption|].
  exact (C6_inaccessible_root default_match echo_last secs "/nonexistent" "phpunit" 1 H1 H2).
Defined.

(** C8: when the printer has received a report [s] and prints it, it writes
    [s] with [strings.TrimSpace] applied, framed by newlines, and writes
    nothing when the trimmed report is empty; the trimmed text is [s] with
    a run of whitespace runes removed on each side, and neither starts nor
    ends with a whitespace rune. *)
Theorem C8_printer_trims m o d st st' s :
  st_printer st = PGot s ->
  exec_choice m o d st CPrint = Some st' ->
  st_printer st' = PWait /\
  st_stdout st' = st_stdout st ++
    (if String.eqb (go_trim_space s) "" then []
     else [nl +:+ go_trim_space s +:+ nl +:+ nl]) /\
  exists pre suf,
    bytes s = pre ++ bytes (go_trim_space s) ++ suf /\
    all_space pre /\ all_space suf /\
    ~ starts_space (bytes (go_trim_space s)) /\
    ~ ends_space (bytes (go_trim_space s)).
Proof.
  intros Hp E. unfold exec_choice in E.
  destruct (live st); [|discriminate]. rewrite Hp in E. injection E as <-.
  split; [reflexivity|]. split; [reflexivity|].
  apply go_trim_space_spec.
Qed.

Lemma C8_witness :
  let st := after default_match echo_last secs cfg_one (sched_run_one ++ [CWorker 0]) in
  let st' := default blank_state (exec_choice default_match echo_last secs st CPrint) in
  (st_printer st = PGot (format_report ["phpunit"; "FooTest.php"] "FooTest.php" "0s") /\
   exec_choice default_match echo_last secs st CPrint = Some st') /\
  st_printer st' = PWait /\
  st_stdout st' = st_stdout st ++
    (if String.eqb (go_trim_space (format_report ["phpunit"; "FooTest.php"] "FooTest.php" "0s")) ""
     then []
     else [nl +:+ go_trim_space (format_report ["phpunit"; "FooTest.php"] "FooTest.php" "0s")
           +:+ nl +:+ nl]) /\
  exists pre suf,
    bytes (format_report ["phpunit"; "FooTest.php"] "FooTest.php" "0s") =
      pre ++ bytes (go_trim_space (format_report ["phpunit"; "FooTest.php"] "FooTest.php" "0s")) ++ suf /\
    all_space pre /\ all_space suf /\
    ~ starts_space (bytes (go_trim_space (format_report ["phpunit"; "FooTest.php"] "FooTest.php" "0s"))) /\
    ~ ends_space (bytes (go_trim_space (format_report ["phpunit"; "FooTest.php"] "FooTest.php" "0s"))).
Proof.
  intros st st'.
  assert (H1 : st_printer st = PGot (format_report ["phpunit"; "FooTest.php"] "FooTest.php" "0s"))
    by (vm_compute; reflexivity).
  assert (H2 : exec_choice default_match echo_last secs st CPrint = Some st')
    by (vm_compute; reflexivity).
  split; [split; assumption|].
  exact (C8_printer_trims default_match echo_last secs st st' _ H1 H2).
Defined.

(** C10 (amended): a command that starts with a whitespace byte (this
    includes a command of whitespace only) passes the empty-command check:
    [main] goes on to the walk; the first of the [parts] is the empty
    string; no command ever succeeds; and when [main] ends normally every
    dispatched file has been counted as a failure, and the exit status is 1
    if at least one file was dispatched and 0 if none was. *)
Theorem C10_leading_space_command m o d c s' threads walk :
  is_re_space c = true ->
  st_main (init (mk_config (String.String c s') None threads walk)) = MWalk walk /\
  default "" (init_parts (mk_config (String.String c s') None threads walk) !! 0) = "" /\
  forall st, reachable m o d (mk_config (String.String c s') None threads walk) st ->
    st_success st = 0 /\
    forall k, st_main st = MExited k ->
      st_fail st = length (st_dispatched st) /\
      k = (if length (st_dispatched st) =? 0 then 0 else 1).
Proof.
  intros Hc.
  assert (Hx : init_exits (mk_config (String.String c s') None threads walk) = false)
    by (apply init_exits_false; [discriminate|reflexivity]).
  assert (Hh : default "" (init_parts (mk_config (String.String c s') None threads walk) !! 0) = "").
  { unfold init_parts. cbn [cfg_command].
    pose proof (split_head_empty c s' Hc) as S0.
    destruct (regexp_split empty_heap (String.String c s')) as [h sl].
    rewrite S0. reflexivity. }
  split.
  { unfold init. cbn [cfg_command cfg_pattern_err cfg_walk].
    change (String.eqb (String.String c s') "") with false. cbv iota.
    destruct (regexp_split empty_heap (String.String c s')). reflexivity. }
  split; [exact Hh|].
  intros st R. pose proof (inv_reachable m o d _ st R) as I.
  destruct (inv_fail_only m _ st I Hh Hx) as [Hs _].
  split; [exact Hs|]. intros k Hk.
  pose proof (inv_drained_counts m _ st I (or_intror (ex_intro _ k Hk))) as Hn.
  rewrite (inv_exit_normal m _ st k I Hx Hk).
  split; [lia|]. unfold exit_code.
  destruct (length (st_dispatched st)) as [|n] eqn:L; simpl;
    [replace (st_fail st) with 0 by lia; reflexivity|].
  replace (st_fail st) with (S n) by lia. reflexivity.
Qed.

Lemma C10_witness :
  is_re_space space_char = true /\
  st_main (init (cfg_lead_space [file_ev "FooTest.php"])) = MWalk [file_ev "FooTest.php"] /\
  default "" (init_parts (cfg_lead_space [file_ev "FooTest.php"]) !! 0) = "" /\
  forall st, reachable default_match echo_last secs (cfg_lead_space [file_ev "FooTest.php"]) st ->
    st_success st = 0 /\
    forall k, st_main st = MExited k ->
      st_fail st = length (st_dispatched st) /\
      k = (if length (st_dispatched st) =? 0 then 0 else 1).
Proof.
  assert (H : is_re_space space_char = true) by (vm_compute; reflexivity).
  split; [exact H|].
  exact (C10_leading_space_command default_match echo_last secs space_char "phpunit" 1
           [file_ev "FooTest.php"] H).
Defined.

